(* ===================================================================== *)
(* Lunch Roulette: the restaurant list store and the suggestion picker    *)
(*                                                                       *)
(* Shallow embedding of                                                  *)
(*   src/components/lunch-roulette-client.tsx  (LunchRouletteClient)     *)
(*   the Genkit flow suggestRestaurant                                   *)
(* The React component is read as a state machine: each event handler is *)
(* a function from the component state to the next state together with   *)
(* the effects it emits (toasts, timers, form resets).  The sources of   *)
(* non-determinism (crypto.randomUUID, Math.random, the text-generation  *)
(* backend) are explicit arguments.                                      *)
(* ===================================================================== *)

From HB Require Import structures.
From mathcomp Require Import boot.
From Stdlib Require Import NArith String Ascii.

Set Implicit Arguments.
Unset Strict Implicit.
Unset Printing Implicit Defensive.

(* --------------------------------------------------------------------- *)
(* JavaScript strings                                                     *)
(* --------------------------------------------------------------------- *)

(* A JavaScript string is a sequence of UTF-16 code units; `length` counts
   code units and `===` compares the sequences. *)
Definition code_unit := N.
Definition jsstring := seq code_unit.

(* Literals of the examples: the code units of an ASCII text. *)
Fixpoint js (s : string) : jsstring :=
  match s with
  | EmptyString => [::]
  | String c s' => N_of_ascii c :: js s'
  end.

(* ECMAScript WhiteSpace and LineTerminator code points, the characters
   String.prototype.trim strips: TAB, LF, VT, FF, CR, SP, NBSP, the
   Unicode Space_Separator category, LS, PS and ZWNBSP. *)
Definition isWhiteSpace (c : code_unit) : bool :=
  [|| (9 <=? c)%N && (c <=? 13)%N,
      (c =? 32)%N, (c =? 160)%N, (c =? 5760)%N,
      (8192 <=? c)%N && (c <=? 8202)%N,
      (c =? 8232)%N, (c =? 8233)%N, (c =? 8239)%N, (c =? 8287)%N,
      (c =? 12288)%N | (c =? 65279)%N].

Fixpoint trimStart (s : jsstring) : jsstring :=
  if s is c :: s' then (if isWhiteSpace c then trimStart s' else s)
  else [::].

Definition trimEnd (s : jsstring) : jsstring := rev (trimStart (rev s)).

(* String.prototype.trim *)
Definition trim (s : jsstring) : jsstring := trimEnd (trimStart s).

(* --------------------------------------------------------------------- *)
(* The data model                                                         *)
(* --------------------------------------------------------------------- *)

(* type Restaurant = { id: string; name: string; blacklisted: boolean } *)
Record Restaurant := mkRestaurant {
  id : jsstring;
  name : jsstring;
  blacklisted : bool
}.

Definition Restaurant_to_tuple (r : Restaurant) :=
  (id r, name r, blacklisted r).
Definition tuple_to_Restaurant (t : jsstring * jsstring * bool) :=
  mkRestaurant t.1.1 t.1.2 t.2.

(* The state of LunchRouletteClient: the persisted list and the three
   useState cells the handlers write. *)
Record State := mkState {
  restaurants : seq Restaurant;
  suggestion : option jsstring;
  isLoading : bool;
  dialogOpen : bool
}.

(* What a handler asks of its environment. *)
Inductive Effect :=
| Toast (variant title description : string)
| SetTimeout (closure : seq Restaurant) (delay : nat)
| FormReset.

(** Modelled from the spec: the useLocalStorage hook (hooks/use-local-storage)
    is not among the sources.  Its setter replaces the whole stored sequence
    under the key "restaurants" and the new value is what later reads see. *)
Definition setRestaurants (rs : seq Restaurant) (st : State) : State :=
  mkState rs (suggestion st) (isLoading st) (dialogOpen st).

Definition setSuggestion (s : option jsstring) (st : State) : State :=
  mkState (restaurants st) s (isLoading st) (dialogOpen st).

Definition setIsLoading (b : bool) (st : State) : State :=
  mkState (restaurants st) (suggestion st) b (dialogOpen st).

Definition setDialogOpen (b : bool) (st : State) : State :=
  mkState (restaurants st) (suggestion st) (isLoading st) b.

(* useLocalStorage("restaurants", []), useState(null), useState(false) *)
Definition initialState : State := mkState [::] None false false.

(* --------------------------------------------------------------------- *)
(* formSchema: z.string().min(1, ...).max(50, ...)                       *)
(* --------------------------------------------------------------------- *)

Inductive StringCheck :=
| Min (value : nat) (message : string)
| Max (value : nat) (message : string).

(* One zod string check against the input's length; the issue's message
   when the check fails. *)
Definition runCheck (data : jsstring) (c : StringCheck) : option string :=
  match c with
  | Min v m => if size data < v then Some m else None
  | Max v m => if v < size data then Some m else None
  end.

Definition formSchema : seq StringCheck :=
  [:: Min 1 "Please enter a restaurant name."; Max 50 "Name is too long."].

(* The issues zod reports for a value: every check is run, in order. *)
Definition issues (schema : seq StringCheck) (data : jsstring) : seq string :=
  pmap (runCheck data) schema.

Inductive ValidationError := ZodError (messages : seq string).

(* schema.safeParse(data) *)
Definition safeParse (schema : seq StringCheck) (data : jsstring)
  : ValidationError + jsstring :=
  if issues schema data is [::] then inr data
  else inl (ZodError (issues schema data)).

(* --------------------------------------------------------------------- *)
(* The handlers of the store                                              *)
(* --------------------------------------------------------------------- *)

(* const activeRestaurants = restaurants.filter(r => !r.blacklisted) *)
Definition activeRestaurants (st : State) : seq Restaurant :=
  [seq r <- restaurants st | ~~ blacklisted r].

(* const hasBlacklisted = restaurants.some(r => r.blacklisted) *)
Definition hasBlacklisted (st : State) : bool :=
  has blacklisted (restaurants st).

(* handleAddRestaurant(values); uuid is what crypto.randomUUID() returns. *)
Definition handleAddRestaurant (uuid : jsstring) (restaurantName : jsstring)
    (st : State) : State * seq Effect :=
  let newRestaurant := mkRestaurant uuid (trim restaurantName) false in
  (setRestaurants (rcons (restaurants st) newRestaurant) st, [:: FormReset]).

(* form.handleSubmit(handleAddRestaurant): the resolver validates the field
   value against formSchema and the handler runs only on success. *)
Definition onSubmit (uuid : jsstring) (restaurantName : jsstring)
    (st : State) : ValidationError + State * seq Effect :=
  match safeParse formSchema restaurantName with
  | inl e => inl e
  | inr values => inr (handleAddRestaurant uuid values st)
  end.

(* handleRemoveRestaurant(id) *)
Definition handleRemoveRestaurant (i : jsstring) (st : State) : State :=
  setRestaurants [seq r <- restaurants st | id r != i] st.

(* handleToggleBlacklist(id) *)
Definition handleToggleBlacklist (i : jsstring) (st : State) : State :=
  setRestaurants
    [seq (if id r == i
          then mkRestaurant (id r) (name r) (~~ blacklisted r)
          else r) | r <- restaurants st] st.

(* handleResetBlacklist() *)
Definition handleResetBlacklist (st : State) : State :=
  setRestaurants
    [seq mkRestaurant (id r) (name r) false | r <- restaurants st] st.

(* --------------------------------------------------------------------- *)
(* The suggestion picker, local path                                      *)
(* --------------------------------------------------------------------- *)

(* The toast of handleGetSuggestion when there is too little to choose
   from (the spec's InsufficientCandidatesError). *)
Definition notEnoughOptions : Effect :=
  Toast "destructive" "Not enough options!"
        "Please add at least two active restaurants to get a suggestion.".

(* handleGetSuggestion(): the synchronous part.  The timer's callback
   closes over the activeRestaurants of the render it was created in. *)
Definition handleGetSuggestion (st : State) : State * seq Effect :=
  if size (activeRestaurants st) < 2 then (st, [:: notEnoughOptions])
  else
    (setSuggestion None (setIsLoading true (setDialogOpen true st)),
     [:: SetTimeout (activeRestaurants st) 1500]).

Inductive JsError := TypeError.

(* activeRestaurants[randomIndex]: undefined past the end. *)
Definition at_index (s : seq Restaurant) (k : nat) : option Restaurant :=
  ohead (drop k s).

(* The callback of the timer.  randomIndex is the value of
   Math.floor(Math.random() * activeRestaurants.length), the drawn index;
   reading `.name` of undefined throws. *)
Definition onTimeout (closure : seq Restaurant) (randomIndex : nat)
    (st : State) : JsError + State :=
  match at_index closure randomIndex with
  | Some randomRestaurant =>
      inr (setIsLoading false (setSuggestion (Some (name randomRestaurant)) st))
  | None => inl TypeError
  end.

(* --------------------------------------------------------------------- *)
(* The suggestion picker, remote path (the Genkit flow)                   *)
(* --------------------------------------------------------------------- *)

Module Flow.

Record SuggestRestaurantInput := mkInput { restaurants : seq jsstring }.
Record SuggestRestaurantOutput := mkOutput { suggestedRestaurant : jsstring }.

Inductive FlowError := SchemaValidationFailed.

(* How an async function settles. *)
Inductive Promise (A : Type) :=
| Resolved (a : A)
| Rejected (e : FlowError).
Arguments Rejected {A} e.

Section Backend.

(* The prompt call `suggestRestaurantPrompt(input)`: the `output` field of
   the model's response, null when there is no structured output. *)
Variable suggestRestaurantPrompt :
  SuggestRestaurantInput -> option SuggestRestaurantOutput.

(* async input => { const {output} = await suggestRestaurantPrompt(input);
                    return output!; }
   The non-null assertion is erased by the compiler: a null output is
   returned as it is. *)
Definition suggestRestaurantFlow_fn (input : SuggestRestaurantInput)
  : option SuggestRestaurantOutput :=
  let output := suggestRestaurantPrompt input in
  output.

(* SuggestRestaurantOutputSchema = z.object({suggestedRestaurant: z.string()})
   applied to what the flow function returned: null is not an object. *)
Definition parseOutput (v : option SuggestRestaurantOutput)
  : Promise SuggestRestaurantOutput :=
  match v with
  | Some o => Resolved o
  | None => Rejected SchemaValidationFailed
  end.

(* ai.defineFlow({inputSchema, outputSchema}, fn): the framework checks the
   value fn returns against outputSchema.  The input is typed, so
   inputSchema accepts it. *)
Definition suggestRestaurantFlow (input : SuggestRestaurantInput)
  : Promise SuggestRestaurantOutput :=
  parseOutput (suggestRestaurantFlow_fn input).

(* export async function suggestRestaurant(input): no try/catch. *)
Definition suggestRestaurant (input : SuggestRestaurantInput)
  : Promise SuggestRestaurantOutput :=
  suggestRestaurantFlow input.

End Backend.

End Flow.

(* --------------------------------------------------------------------- *)
(* Vocabulary of the statements                                           *)
(* --------------------------------------------------------------------- *)

Definition ids (rs : seq Restaurant) : seq jsstring := [seq id r | r <- rs].
Definition names (rs : seq Restaurant) : seq jsstring := [seq name r | r <- rs].
Definition flags (rs : seq Restaurant) : seq bool :=
  [seq blacklisted r | r <- rs].

(* The default of `nth` in statements; never reached under their bounds. *)
Definition noRestaurant : Restaurant := mkRestaurant [::] [::] false.

(* A store used by the worked examples. *)
Definition pizza : Restaurant := mkRestaurant (js "id-1") (js "Pizza") false.
Definition sushi : Restaurant := mkRestaurant (js "id-2") (js "Sushi") true.
Definition tacos : Restaurant := mkRestaurant (js "id-3") (js "Tacos") false.
Definition lunchSpots : State := mkState [:: pizza; sushi; tacos] None false false.

(* The spec's scenario: Pizza eligible, Sushi excluded. *)
Definition onlyPizza : State := mkState [:: pizza; sushi] None false false.

(* What handleToggleBlacklist does to one record. *)
Definition flipped (r : Restaurant) : Restaurant :=
  mkRestaurant (id r) (name r) (~~ blacklisted r).

(* A name as the data model wants it: trimmed, non-empty, at most 50. *)
Definition trimmedName (n : jsstring) : bool := trim n == n.
Definition validName (n : jsstring) : bool :=
  [&& trimmedName n, 0 < size n & size n <= 50].

(* The invariant of the data model: ids pairwise distinct, names valid. *)
Definition wellFormed (rs : seq Restaurant) : bool :=
  uniq (ids rs) && all validName (names rs).

(* The part of it that every operation keeps. *)
Definition boundedName (n : jsstring) : bool :=
  trimmedName n && (size n <= 50).
Definition almostWellFormed (rs : seq Restaurant) : bool :=
  uniq (ids rs) && all boundedName (names rs).

(* --------------------------------------------------------------------- *)
(* What the component renders                                             *)
(* --------------------------------------------------------------------- *)

(* {restaurants.length > 0 && <CardFooter> ... </CardFooter>}: the footer
   holds the "What's for Lunch?" button. *)
Definition footerShown (st : State) : bool := 0 < size (restaurants st).

(* <Button onClick={handleGetSuggestion}
           disabled={activeRestaurants.length < 2}> *)
Definition suggestDisabled (st : State) : bool :=
  size (activeRestaurants st) < 2.

(* The button can be clicked when it is rendered and not disabled. *)
Definition suggestClickable (st : State) : bool :=
  footerShown st && ~~ suggestDisabled st.

(* {hasBlacklisted && <Button onClick={handleResetBlacklist}>Reset</Button>} *)
Definition resetShown (st : State) : bool := hasBlacklisted st.

(* The body of the dialog:
     isLoading ? (spinner) : suggestion && (a paragraph with {suggestion})
   null and the empty string are falsy and render nothing. *)
Inductive DialogBody :=
| Spinner
| Verdict (text : jsstring)
| NothingShown.

Definition dialogBody (st : State) : DialogBody :=
  if isLoading st then Spinner
  else match suggestion st with
       | Some (c :: s) => Verdict (c :: s)
       | Some [::] => NothingShown
       | None => NothingShown
       end.

(* <Dialog open={dialogOpen} onOpenChange={setDialogOpen}> *)
Definition dialogView (st : State) : option DialogBody :=
  if dialogOpen st then Some (dialogBody st) else None.

(* --------------------------------------------------------------------- *)
(* The component as a machine of events                                   *)
(* --------------------------------------------------------------------- *)

(* What can happen to the mounted component: the form is submitted (with
   the id crypto.randomUUID() returns), a row's delete button or switch is
   used, Reset or "What's for Lunch?" is clicked, a timer started by
   handleGetSuggestion fires (with the list it closed over and the index
   drawn), the dialog is opened or closed. *)
Inductive Event :=
| Submit (uuid restaurantName : jsstring)
| Remove (i : jsstring)
| Toggle (i : jsstring)
| ResetAll
| GetSuggestion
| TimerFires (closure : seq Restaurant) (randomIndex : nat)
| OpenChange (b : bool).

(* The state after an event.  A rejected submission and a callback that
   throws leave the state as it was. *)
Definition handle (e : Event) (st : State) : State :=
  match e with
  | Submit uuid v => if onSubmit uuid v st is inr res then res.1 else st
  | Remove i => handleRemoveRestaurant i st
  | Toggle i => handleToggleBlacklist i st
  | ResetAll => handleResetBlacklist st
  | GetSuggestion => (handleGetSuggestion st).1
  | TimerFires closure k => if onTimeout closure k st is inr st' then st' else st
  | OpenChange b => setDialogOpen b st
  end.

Definition run (es : seq Event) (st : State) : State :=
  foldl (fun st e => handle e st) st es.

(* Every id generated along the way is new for the list it is added to. *)
Fixpoint freshIds (es : seq Event) (st : State) : bool :=
  if es is e :: es' then
    (if e is Submit uuid _ then uuid \notin ids (restaurants st) else true)
    && freshIds es' (handle e st)
  else true.

(* No submitted value consists of white space only. *)
Definition noBlankSubmit (es : seq Event) : bool :=
  all (fun e => if e is Submit _ v then has (predC isWhiteSpace) v else true)
      es.

(* A list with a record whose name is empty, as a submission of white
   space leaves it. *)
Definition blankSpot : State :=
  mkState [:: pizza; mkRestaurant (js "id-5") [::] false] None false false.

(* Two runs of events used by the worked examples. *)
Definition busyDay : seq Event :=
  [:: Submit (js "id-1") (js " Pizza"); Submit (js "id-2") (js "   ");
      Toggle (js "id-1"); Submit (js "id-3") [::]; GetSuggestion;
      Submit (js "id-3") (js "Tacos "); Remove (js "id-2"); ResetAll].

Definition quietDay : seq Event :=
  [:: Submit (js "id-1") (js " Pizza"); Submit (js "id-2") (js "Sushi");
      Toggle (js "id-1"); GetSuggestion; TimerFires [:: pizza] 0;
      Remove (js "id-2"); OpenChange false; ResetAll].

(* A string that neither starts nor ends with white space. *)
Definition noOuterSpace (s : jsstring) : bool :=
  ~~ isWhiteSpace (head 97%N s) && ~~ isWhiteSpace (last 97%N s).

(* ===================================================================== *)
(* Properties                                                             *)
(* ===================================================================== *)

(* Equality on records, for the membership statements. *)
Lemma Restaurant_tupleK : cancel Restaurant_to_tuple tuple_to_Restaurant.
Proof. by case. Qed.
HB.instance Definition _ :=
  Equality.copy Restaurant (can_type Restaurant_tupleK).


Section StoreFacts.

Implicit Types (st : State) (rs : seq Restaurant) (i : jsstring).

Lemma setRestaurants_same st : setRestaurants (restaurants st) st = st.
Proof. by case: st. Qed.

Lemma restaurants_set rs st : restaurants (setRestaurants rs st) = rs.
Proof. by []. Qed.

(* Filtering on an id that does not occur keeps everything. *)
Lemma filter_absent_id i rs :
  i \notin ids rs -> [seq r <- rs | id r != i] = rs.
Proof.
move=> Hi; apply/all_filterP/allP => r Hr.
by apply: contraNneq Hi => <-; apply: map_f.
Qed.

(* Filtering on an id leaves no record with it. *)
Lemma filter_id_gone i rs : i \notin ids [seq r <- rs | id r != i].
Proof.
apply/negP => /mapP [r]; rewrite mem_filter => /andP [Hne _] Hi.
by rewrite Hi eqxx in Hne.
Qed.

End StoreFacts.

(* --------------------------------------------------------------------- *)
(* Picking                                                                *)
(* --------------------------------------------------------------------- *)

(** C1.  With fewer than two eligible (non-blacklisted) records a pick
    request is turned down: handleGetSuggestion returns normally, its only
    effect is the destructive "Not enough options!" toast (no timer is
    started, so nothing is picked), and the whole state, the restaurant
    list in particular, is what it was. *)
Theorem pick_rejected_below_two (st : State) :
  size (activeRestaurants st) < 2 ->
  [/\ handleGetSuggestion st = (st, [:: notEnoughOptions])
    & restaurants (handleGetSuggestion st).1 = restaurants st].
Proof. by rewrite /handleGetSuggestion => ->. Qed.


Lemma pick_rejected_below_two_witness :
  size (activeRestaurants onlyPizza) < 2 /\
  [/\ handleGetSuggestion onlyPizza = (onlyPizza, [:: notEnoughOptions])
    & restaurants (handleGetSuggestion onlyPizza).1 = restaurants onlyPizza].
Proof. by split; [|apply: (@pick_rejected_below_two onlyPizza)]. Defined.

Lemma at_index_nth (s : seq Restaurant) (k : nat) :
  k < size s -> at_index s k = Some (nth noRestaurant s k).
Proof. by move=> Hk; rewrite /at_index (drop_nth noRestaurant Hk). Qed.

Lemma at_index_default (s : seq Restaurant) (k : nat) :
  size s <= k -> at_index s k = None.
Proof. by move=> Hk; rewrite /at_index drop_oversize. Qed.

(** C3.  With n >= 2 eligible records and a drawn index i < n, the request
    starts a timer over the eligible subsequence, and when the timer fires
    with that index the suggestion becomes the name of the record at
    position i of the eligible subsequence; that name is the name of a
    non-blacklisted record of the list the request was made on. *)
Theorem local_pick_returns_indexed (st : State) (i : nat) :
  2 <= size (activeRestaurants st) ->
  i < size (activeRestaurants st) ->
  let picked := nth noRestaurant (activeRestaurants st) i in
  let st1 := (handleGetSuggestion st).1 in
  [/\ (handleGetSuggestion st).2 = [:: SetTimeout (activeRestaurants st) 1500],
      onTimeout (activeRestaurants st) i st1 =
        inr (setIsLoading false (setSuggestion (Some (name picked)) st1)),
      forall st2, onTimeout (activeRestaurants st) i st1 = inr st2 ->
        suggestion st2 = Some (name picked) /\
        restaurants st2 = restaurants st
    & picked \in restaurants st /\ ~~ blacklisted picked].
Proof.
move=> Hn Hi picked st1.
have Hpick : picked \in activeRestaurants st by apply: mem_nth.
have Hto : onTimeout (activeRestaurants st) i st1 =
    inr (setIsLoading false (setSuggestion (Some (name picked)) st1)).
  by rewrite /onTimeout at_index_nth.
split=> //.
- by rewrite /handleGetSuggestion ltnNge Hn.
- move=> st2; rewrite Hto => -[<-] /=; split=> //.
  by rewrite /st1 /handleGetSuggestion ltnNge Hn.
- by move: Hpick; rewrite mem_filter => /andP [-> ->].
Qed.

Lemma local_pick_returns_indexed_witness :
  let st := lunchSpots in
  let st1 := (handleGetSuggestion st).1 in
  [/\ (handleGetSuggestion st).2 = [:: SetTimeout [:: pizza; tacos] 1500],
      onTimeout (activeRestaurants st) 1 st1 =
        inr (setIsLoading false (setSuggestion (Some (js "Tacos")) st1)),
      forall st2, onTimeout (activeRestaurants st) 1 st1 = inr st2 ->
        suggestion st2 = Some (js "Tacos") /\
        restaurants st2 = restaurants st
    & tacos \in restaurants st /\ ~~ blacklisted tacos].
Proof.
by apply: (@local_pick_returns_indexed lunchSpots 1).
Defined.

(* --------------------------------------------------------------------- *)
(* The store operations                                                   *)
(* --------------------------------------------------------------------- *)

(** C6.  Adding a name the form accepts and then removing the id that add
    generated gives back the state the add started from, the sequence of
    records exactly, whenever the generated id is not the id of a record
    already in the list. *)
Theorem add_then_remove_roundtrip (st st' : State) (uuid nm : jsstring)
    (effs : seq Effect) :
  uuid \notin ids (restaurants st) ->
  onSubmit uuid nm st = inr (st', effs) ->
  handleRemoveRestaurant uuid st' = st /\
  restaurants (handleRemoveRestaurant uuid st') = restaurants st.
Proof.
move=> Hfresh; rewrite /onSubmit; case: (safeParse _ _) => // values [<- _].
rewrite /handleRemoveRestaurant /handleAddRestaurant /=.
rewrite filter_rcons /= eqxx /= filter_absent_id //.
by case: st {Hfresh}.
Qed.

Lemma add_then_remove_roundtrip_witness :
  let uuid := js "id-4" in
  let st' := (handleAddRestaurant uuid (js "Ramen") lunchSpots).1 in
  handleRemoveRestaurant uuid st' = lunchSpots /\
  restaurants (handleRemoveRestaurant uuid st') = restaurants lunchSpots.
Proof.
by apply: (@add_then_remove_roundtrip lunchSpots _ (js "id-4") (js "Ramen")
             [:: FormReset]).
Defined.

(** C7.  handleResetBlacklist sets blacklisted = false on every record of
    the list it is given: the result has as many records as the list, the
    record at each position is the record of the list at that position
    with the same id and name and the flag false, so all flags are false
    (one per record) and nothing is blacklisted any more; doing it twice
    gives the same state as doing it once. *)
Theorem reset_clears_and_idempotent (st : State) :
  [/\ flags (restaurants (handleResetBlacklist st)) =
        nseq (size (restaurants st)) false,
      all (fun r => ~~ blacklisted r) (restaurants (handleResetBlacklist st)),
      hasBlacklisted (handleResetBlacklist st) = false,
      size (restaurants (handleResetBlacklist st)) = size (restaurants st) /\
      (forall k, k < size (restaurants st) ->
         nth noRestaurant (restaurants (handleResetBlacklist st)) k =
         mkRestaurant (id (nth noRestaurant (restaurants st) k))
                      (name (nth noRestaurant (restaurants st) k)) false)
    & handleResetBlacklist (handleResetBlacklist st) = handleResetBlacklist st].
Proof.
have Hall rs : all (fun r => ~~ blacklisted r)
                 [seq mkRestaurant (id r) (name r) false | r <- rs].
  by rewrite all_map; apply/allP.
split.
- by rewrite /flags /= -map_comp; elim: (restaurants st) => //= r rs ->.
- exact: Hall.
- by apply: negbTE; rewrite /hasBlacklisted -all_predC; exact: Hall.
- split; first by rewrite /= size_map.
  by move=> k Hk; rewrite /= (nth_map noRestaurant).
- by rewrite /handleResetBlacklist /setRestaurants /= -map_comp.
Qed.

Lemma reset_clears_and_idempotent_witness :
  nth noRestaurant (restaurants (handleResetBlacklist lunchSpots)) 1 =
  mkRestaurant (js "id-2") (js "Sushi") false.
Proof.
case: (reset_clears_and_idempotent lunchSpots) => _ _ _ [_ Hnth] _.
exact: (Hnth 1).
Defined.

(** C8.  handleRemoveRestaurant deletes the record with the given id
    wherever it sits and keeps the others in their order: no record with
    that id remains; a list l1 ++ r :: l2 in which only r has the id
    becomes l1 ++ l2; every record with another id is kept, and the result
    is a subsequence of the list.  When no record has the id the state is
    returned unchanged. *)
Theorem remove_deletes_matching (i : jsstring) (st : State) :
  [/\ i \notin ids (restaurants (handleRemoveRestaurant i st)),
      forall l1 r l2, restaurants st = l1 ++ r :: l2 -> id r = i ->
        i \notin ids l1 -> i \notin ids l2 ->
        restaurants (handleRemoveRestaurant i st) = l1 ++ l2,
      forall r, (r \in restaurants (handleRemoveRestaurant i st)) =
                (r \in restaurants st) && (id r != i),
      subseq (restaurants (handleRemoveRestaurant i st)) (restaurants st)
    & i \notin ids (restaurants st) -> handleRemoveRestaurant i st = st].
Proof.
split.
- exact: filter_id_gone.
- move=> l1 r l2 /= -> Hr H1 H2.
  by rewrite filter_cat /= Hr eqxx /= !filter_absent_id.
- by move=> r; rewrite /= mem_filter andbC.
- exact: filter_subseq.
- move=> Hi; rewrite /handleRemoveRestaurant filter_absent_id //.
  exact: setRestaurants_same.
Qed.

Lemma remove_deletes_matching_witness :
  restaurants (handleRemoveRestaurant (js "id-2") lunchSpots) = [:: pizza; tacos]
  /\ handleRemoveRestaurant (js "id-9") lunchSpots = lunchSpots.
Proof.
case: (remove_deletes_matching (js "id-2") lunchSpots) => _ Hmid _ _ _.
case: (remove_deletes_matching (js "id-9") lunchSpots) => _ _ _ _ Hnone.
split; last exact: Hnone.
exact: (Hmid [:: pizza] sushi [:: tacos]).
Defined.


Lemma toggle_absent_id (i : jsstring) (rs : seq Restaurant) :
  i \notin ids rs ->
  [seq (if id r == i then mkRestaurant (id r) (name r) (~~ blacklisted r)
        else r) | r <- rs] = rs.
Proof.
elim: rs => //= r rs IH; rewrite inE negb_or eq_sym => /andP [Hr Hrs].
by rewrite (negbTE Hr) IH.
Qed.

(** C9.  handleToggleBlacklist flips the blacklisted flag of the record
    with the given id: a record at position k that has the id is replaced
    by the same record with the flag negated; a list l1 ++ r :: l2 in which
    only r has the id becomes l1 ++ flipped r :: l2.  When no record has
    the id the state is returned unchanged. *)
Theorem toggle_flips_matching (i : jsstring) (st : State) :
  [/\ forall k, k < size (restaurants st) ->
        id (nth noRestaurant (restaurants st) k) = i ->
        nth noRestaurant (restaurants (handleToggleBlacklist i st)) k =
          flipped (nth noRestaurant (restaurants st) k),
      forall l1 r l2, restaurants st = l1 ++ r :: l2 -> id r = i ->
        i \notin ids l1 -> i \notin ids l2 ->
        restaurants (handleToggleBlacklist i st) = l1 ++ flipped r :: l2
    & i \notin ids (restaurants st) -> handleToggleBlacklist i st = st].
Proof.
split.
- by move=> k Hk <-; rewrite /= (nth_map noRestaurant) // eqxx.
- move=> l1 r l2 /= -> <- H1 H2.
  by rewrite map_cat /= eqxx !toggle_absent_id.
- move=> Hi; rewrite /handleToggleBlacklist toggle_absent_id //.
  exact: setRestaurants_same.
Qed.

Lemma toggle_flips_matching_witness :
  restaurants (handleToggleBlacklist (js "id-2") lunchSpots) =
    [:: pizza; mkRestaurant (js "id-2") (js "Sushi") false; tacos]
  /\ handleToggleBlacklist (js "id-9") lunchSpots = lunchSpots.
Proof.
case: (toggle_flips_matching (js "id-2") lunchSpots) => _ Hmid _.
case: (toggle_flips_matching (js "id-9") lunchSpots) => _ _ Hnone.
split; last exact: Hnone.
exact: (Hmid [:: pizza] sushi [:: tacos]).
Defined.

(** C10.  handleToggleBlacklist and handleResetBlacklist keep the length of
    the list and, position by position, every id and every name; neither
    touches the other cells of the state.  handleToggleBlacklist leaves
    every record whose id differs from the given one as it was, so only
    flags change, and for a toggle only the flag of the matching record. *)
Theorem toggle_reset_frame (i : jsstring) (st : State) :
  let t := handleToggleBlacklist i st in
  let z := handleResetBlacklist st in
  [/\ [/\ size (restaurants t) = size (restaurants st),
          ids (restaurants t) = ids (restaurants st)
        & names (restaurants t) = names (restaurants st)],
      forall k, id (nth noRestaurant (restaurants st) k) != i ->
        nth noRestaurant (restaurants t) k =
        nth noRestaurant (restaurants st) k,
      [/\ size (restaurants z) = size (restaurants st),
          ids (restaurants z) = ids (restaurants st)
        & names (restaurants z) = names (restaurants st)]
    & [/\ suggestion t = suggestion st, isLoading t = isLoading st
        & dialogOpen t = dialogOpen st] /\
      [/\ suggestion z = suggestion st, isLoading z = isLoading st
        & dialogOpen z = dialogOpen st]].
Proof.
move=> t z; split=> //.
- split; first by rewrite size_map.
  + rewrite /ids /= -map_comp; apply: eq_map => r /=.
    by case: (id r == i).
  + rewrite /names /= -map_comp; apply: eq_map => r /=.
    by case: (id r == i).
- move=> k Hk; case: (ltnP k (size (restaurants st))) => Hsz.
  + by rewrite /= (nth_map noRestaurant) // (negbTE Hk).
  + by rewrite !nth_default //= size_map.
- split; first by rewrite size_map.
  + by rewrite /ids /= -map_comp.
  + by rewrite /names /= -map_comp.
Qed.

(* --------------------------------------------------------------------- *)
(* trim                                                                   *)
(* --------------------------------------------------------------------- *)

Section TrimFacts.

Implicit Types (s t : jsstring) (c : code_unit).

Lemma size_trimStart s : size (trimStart s) <= size s.
Proof.
elim: s => //= c s IH; case: (isWhiteSpace c) => //.
exact: leq_trans IH (leqnSn _).
Qed.

Lemma size_trimEnd s : size (trimEnd s) <= size s.
Proof. by rewrite /trimEnd size_rev -(size_rev s); exact: size_trimStart. Qed.

Lemma size_trim s : size (trim s) <= size s.
Proof. exact: leq_trans (size_trimEnd _) (size_trimStart _). Qed.

(* What trimStart returns starts with a character that is not white space. *)
Lemma trimStart_head s c t : trimStart s = c :: t -> ~~ isWhiteSpace c.
Proof.
elim: s => //= x s IH; case Hx: (isWhiteSpace x) => //.
by case=> <- _; rewrite Hx.
Qed.

Lemma trimStart_keep c s : ~~ isWhiteSpace c -> trimStart (c :: s) = c :: s.
Proof. by move=> /negbTE /= ->. Qed.

Lemma trimStart_idem s : trimStart (trimStart s) = trimStart s.
Proof. by elim: s => //= c s IH; case Hc: (isWhiteSpace c) => //=; rewrite Hc. Qed.

Lemma trimEnd_idem s : trimEnd (trimEnd s) = trimEnd s.
Proof. by rewrite /trimEnd revK trimStart_idem. Qed.

Lemma trimStart_rcons s c :
  ~~ isWhiteSpace c -> trimStart (rcons s c) = rcons (trimStart s) c.
Proof.
move=> Hc; elim: s => [|x s IH] /=; first by rewrite (negbTE Hc).
by case: (isWhiteSpace x).
Qed.

Lemma trimEnd_cons c s :
  ~~ isWhiteSpace c -> trimEnd (c :: s) = c :: trimEnd s.
Proof. by move=> Hc; rewrite /trimEnd rev_cons trimStart_rcons // rev_rcons. Qed.

(* String.prototype.trim is idempotent: its result is a trimmed string. *)
Lemma trim_idem s : trim (trim s) = trim s.
Proof.
rewrite {2 3}/trim; case Ht: (trimStart s) => [|c t] //.
have Hc := trimStart_head Ht.
rewrite trimEnd_cons // /trim trimStart_keep // trimEnd_cons //.
by rewrite trimEnd_idem.
Qed.

(* A string of white space only trims to the empty string. *)
Lemma trim_all_white s : all isWhiteSpace s -> trim s = [::].
Proof.
move=> Hs; rewrite /trim; suff -> : trimStart s = [::] by [].
by elim: s Hs => //= c s IH /andP [-> /IH].
Qed.

End TrimFacts.

(* --------------------------------------------------------------------- *)
(* Validation of the add form                                             *)
(* --------------------------------------------------------------------- *)

(* formSchema looks at the length of the field value as typed. *)
Lemma safeParse_formSchema (v : jsstring) :
  safeParse formSchema v =
    if size v < 1 then inl (ZodError [:: "Please enter a restaurant name."%string])
    else if 50 < size v then inl (ZodError [:: "Name is too long."%string])
    else inr v.
Proof.
rewrite /safeParse /issues /=.
by case: (size v) => [|n] //=; case: (50 < n.+1).
Qed.

(* onSubmit is rejected exactly when the value as typed is empty or longer
   than 50 code units; otherwise it appends the record with the trimmed
   name, the generated id and blacklisted = false at the end. *)
Lemma onSubmit_rejects (uuid v : jsstring) (st : State) :
  (if onSubmit uuid v st is inl _ then true else false) =
  (size v == 0) || (50 < size v).
Proof.
rewrite /onSubmit safeParse_formSchema ltnS leqn0.
by case: (size v == 0) => //; case: (50 < size v).
Qed.

Lemma onSubmit_accepts (uuid v : jsstring) (st : State) :
  0 < size v <= 50 ->
  onSubmit uuid v st =
    inr (setRestaurants
           (rcons (restaurants st) (mkRestaurant uuid (trim v) false)) st,
         [:: FormReset]).
Proof.
case/andP=> H0 H50; rewrite /onSubmit safeParse_formSchema.
by rewrite ltnNge H0 /= ltnNge H50.
Qed.

(* Exactly 50 characters are accepted, 51 are not. *)
Lemma onSubmit_50 (uuid : jsstring) (st : State) :
  onSubmit uuid (nseq 50 97%N) st =
    inr (setRestaurants
           (rcons (restaurants st) (mkRestaurant uuid (nseq 50 97%N) false)) st,
         [:: FormReset]).
Proof. by rewrite onSubmit_accepts. Qed.

Lemma onSubmit_51 (uuid : jsstring) (st : State) :
  onSubmit uuid (nseq 51 97%N) st = inl (ZodError [:: "Name is too long."%string]).
Proof. by []. Qed.

(** C2.  The form validates the value as typed and the handler trims it
    afterwards, so a name of white space only is not rejected: it passes
    formSchema (its length is between 1 and 50) and a record with the empty
    name is appended. *)
Theorem add_accepts_whitespace_name (uuid : jsstring) (st : State) :
  trim (js "   ") = [::] /\
  onSubmit uuid (js "   ") st =
    inr (setRestaurants
           (rcons (restaurants st) (mkRestaurant uuid [::] false)) st,
         [:: FormReset]).
Proof. by []. Qed.

(* The same order of validation and trimming rejects a value of 51
   characters as typed whose trimmed form has 50. *)
Lemma add_rejects_padded_50 (uuid : jsstring) (st : State) :
  size (trim (32%N :: nseq 50 97%N)) = 50 /\
  onSubmit uuid (32%N :: nseq 50 97%N) st =
    inl (ZodError [:: "Name is too long."%string]).
Proof. by []. Qed.

(* --------------------------------------------------------------------- *)
(* The invariant of the list                                              *)
(* --------------------------------------------------------------------- *)


Section InvariantFacts.

Implicit Types (st : State) (rs : seq Restaurant) (i uuid v : jsstring).
Variable P : pred jsstring.

Let inv rs := uniq (ids rs) && all P (names rs).

Lemma ids_toggle i st :
  ids (restaurants (handleToggleBlacklist i st)) = ids (restaurants st).
Proof.
by rewrite /ids /= -map_comp; apply: eq_map => r /=; case: (id r == i).
Qed.

Lemma names_toggle i st :
  names (restaurants (handleToggleBlacklist i st)) = names (restaurants st).
Proof.
by rewrite /names /= -map_comp; apply: eq_map => r /=; case: (id r == i).
Qed.

Lemma ids_reset st :
  ids (restaurants (handleResetBlacklist st)) = ids (restaurants st).
Proof. by rewrite /ids /= -map_comp. Qed.

Lemma names_reset st :
  names (restaurants (handleResetBlacklist st)) = names (restaurants st).
Proof. by rewrite /names /= -map_comp. Qed.

Lemma toggle_keeps i st :
  inv (restaurants st) -> inv (restaurants (handleToggleBlacklist i st)).
Proof. by rewrite /inv ids_toggle names_toggle. Qed.

Lemma reset_keeps st :
  inv (restaurants st) -> inv (restaurants (handleResetBlacklist st)).
Proof. by rewrite /inv ids_reset names_reset. Qed.

Lemma remove_keeps i st :
  inv (restaurants st) -> inv (restaurants (handleRemoveRestaurant i st)).
Proof.
rewrite /inv /= => /andP [Hu Ha]; apply/andP; split.
- exact: subseq_uniq (map_subseq _ (filter_subseq _ _)) Hu.
- apply/allP => n /mapP [r]; rewrite mem_filter => /andP [_ Hr] ->.
  by apply: (allP Ha); apply: map_f.
Qed.

(* Adding keeps the invariant when the generated id is new and the
   trimmed name satisfies the condition on names. *)
Lemma add_keeps uuid v st :
  uuid \notin ids (restaurants st) -> P (trim v) ->
  inv (restaurants st) ->
  inv (restaurants (handleAddRestaurant uuid v st).1).
Proof.
move=> Hfresh Hv /andP [Hu Ha].
by rewrite /inv /ids /names /= !map_rcons rcons_uniq all_rcons Hfresh Hu Hv.
Qed.

End InvariantFacts.

(* A submission that goes through ran the handler on a value of 1 to 50
   code units. *)
Lemma onSubmit_inr (uuid v : jsstring) (st : State) (res : State * seq Effect) :
  onSubmit uuid v st = inr res ->
  0 < size v <= 50 /\ res = handleAddRestaurant uuid v st.
Proof.
rewrite /onSubmit safeParse_formSchema.
case: (size v) => [|n] //=; rewrite [50 < _]ltnNge.
by case: (n.+1 <= 50) => //= -[<-].
Qed.

(* What the form lets through is trimmed and at most 50 long once trimmed. *)
Lemma accepted_name_bounded (uuid v : jsstring) (st : State)
    (res : State * seq Effect) :
  onSubmit uuid v st = inr res -> boundedName (trim v).
Proof.
case/onSubmit_inr => /andP [_ H50] _.
rewrite /boundedName /trimmedName trim_idem eqxx /=.
exact: leq_trans (size_trim v) H50.
Qed.

(* Every operation of the store keeps ids distinct and names trimmed and
   at most 50 long, a generated id being new. *)
Lemma store_keeps_almostWellFormed (st : State) :
  almostWellFormed (restaurants st) ->
  [/\ forall uuid v res, uuid \notin ids (restaurants st) ->
        onSubmit uuid v st = inr res -> almostWellFormed (restaurants res.1),
      forall i, almostWellFormed (restaurants (handleRemoveRestaurant i st)),
      forall i, almostWellFormed (restaurants (handleToggleBlacklist i st))
    & almostWellFormed (restaurants (handleResetBlacklist st))].
Proof.
move=> Hinv; split.
- move=> uuid v res Hfresh Hres.
  have Hb := accepted_name_bounded Hres.
  case: (onSubmit_inr Hres) => _ ->.
  exact: add_keeps.
- by move=> i; apply: remove_keeps.
- by move=> i; apply: toggle_keeps.
- exact: reset_keeps.
Qed.

(* remove, toggle and reset keep the whole invariant, and so does an add
   whose trimmed name is not empty. *)
Lemma store_keeps_wellFormed (st : State) :
  wellFormed (restaurants st) ->
  [/\ forall uuid v res, uuid \notin ids (restaurants st) ->
        0 < size (trim v) ->
        onSubmit uuid v st = inr res -> wellFormed (restaurants res.1),
      forall i, wellFormed (restaurants (handleRemoveRestaurant i st)),
      forall i, wellFormed (restaurants (handleToggleBlacklist i st))
    & wellFormed (restaurants (handleResetBlacklist st))].
Proof.
move=> Hinv; split.
- move=> uuid v res Hfresh Hne Hres.
  have /andP [Ht H50] := accepted_name_bounded Hres.
  case: (onSubmit_inr Hres) => _ ->.
  by apply: add_keeps => //; rewrite /validName Ht Hne.
- by move=> i; apply: remove_keeps.
- by move=> i; apply: toggle_keeps.
- exact: reset_keeps.
Qed.

(** C5.  The invariant does not survive every add: on the empty list, which
    satisfies it, submitting a single space with a new id is accepted and
    leaves a record whose name is empty, so the list is no longer well
    formed (its ids are still distinct and its names trimmed and at most 50
    long). *)
Theorem add_breaks_nonempty_name :
  [/\ wellFormed (restaurants initialState),
      js "id-1" \notin ids (restaurants initialState),
      onSubmit (js "id-1") (js " ") initialState =
        inr (mkState [:: mkRestaurant (js "id-1") [::] false] None false false,
             [:: FormReset]),
      wellFormed [:: mkRestaurant (js "id-1") [::] false] = false
    & almostWellFormed [:: mkRestaurant (js "id-1") [::] false]].
Proof. by []. Qed.

(* --------------------------------------------------------------------- *)
(* The remote path                                                        *)
(* --------------------------------------------------------------------- *)

(* A backend that answers with a structured output is passed through. *)
Lemma suggestRestaurant_passes (prompt : Flow.SuggestRestaurantInput ->
                                          option Flow.SuggestRestaurantOutput)
    (input : Flow.SuggestRestaurantInput) (o : Flow.SuggestRestaurantOutput) :
  prompt input = Some o ->
  Flow.suggestRestaurant prompt input = Flow.Resolved o.
Proof. by rewrite /Flow.suggestRestaurant /Flow.suggestRestaurantFlow
                  /Flow.suggestRestaurantFlow_fn => ->. Qed.

(** C4.  When the backend returns no structured output the flow function
    hands the null on unchecked (the non-null assertion does nothing at run
    time) and suggestRestaurant settles as a rejected promise: no
    EmptyResponseError is raised and nothing in the flow catches the
    failure or turns it into a message. *)
Theorem empty_response_not_caught
    (prompt : Flow.SuggestRestaurantInput -> option Flow.SuggestRestaurantOutput)
    (input : Flow.SuggestRestaurantInput) :
  prompt input = None ->
  Flow.suggestRestaurantFlow_fn prompt input = None /\
  Flow.suggestRestaurant prompt input =
    Flow.Rejected Flow.SchemaValidationFailed.
Proof. by rewrite /Flow.suggestRestaurant /Flow.suggestRestaurantFlow
                  /Flow.suggestRestaurantFlow_fn => ->. Qed.

Lemma empty_response_not_caught_witness :
  let input := Flow.mkInput [:: js "A"; js "B"; js "C"] in
  let silent := fun _ : Flow.SuggestRestaurantInput =>
                  @None Flow.SuggestRestaurantOutput in
  Flow.suggestRestaurantFlow_fn silent input = None /\
  Flow.suggestRestaurant silent input =
    Flow.Rejected Flow.SchemaValidationFailed.
Proof.
by apply: (@empty_response_not_caught (fun _ => None)
             (Flow.mkInput [:: js "A"; js "B"; js "C"])).
Defined.

(* ===================================================================== *)
(* Further properties of the handlers                                     *)
(* ===================================================================== *)

Section Composition.

Implicit Types (st : State) (rs : seq Restaurant) (i j : jsstring).

Lemma setRestaurants_twice rs1 rs2 st :
  setRestaurants rs1 (setRestaurants rs2 st) = setRestaurants rs1 st.
Proof. by []. Qed.

(* Two states with the same list that come from the same state by store
   handlers are equal. *)
Lemma setRestaurants_eq rs1 rs2 st :
  rs1 = rs2 -> setRestaurants rs1 st = setRestaurants rs2 st.
Proof. by move=> ->. Qed.

(** X1.  Using the switch of a row twice gives back the state it started
    from: handleToggleBlacklist with the same id is an involution, on every
    list. *)
Theorem toggle_involutive i st :
  handleToggleBlacklist i (handleToggleBlacklist i st) = st.
Proof.
rewrite /handleToggleBlacklist setRestaurants_twice /= -map_comp.
rewrite -[RHS]setRestaurants_same; apply: setRestaurants_eq.
rewrite -[RHS]map_id; apply: eq_map => -[ri rn rb] /=.
by case Hi: (ri == i) => /=; rewrite ?Hi ?negbK.
Qed.

(** X2.  Removing is idempotent and removals commute: deleting an id a
    second time changes nothing, and two ids can be deleted in either
    order. *)
Theorem remove_idempotent_commutes i j st :
  handleRemoveRestaurant i (handleRemoveRestaurant i st) =
    handleRemoveRestaurant i st /\
  handleRemoveRestaurant i (handleRemoveRestaurant j st) =
    handleRemoveRestaurant j (handleRemoveRestaurant i st).
Proof.
rewrite /handleRemoveRestaurant !setRestaurants_twice /=; split.
- by rewrite filter_id.
- apply: setRestaurants_eq; rewrite -!filter_predI; apply: eq_filter => r /=.
  exact: andbC.
Qed.

(** X3.  Removing and toggling commute, for equal ids too: deleting the
    records with id i from a list on which id j was toggled is toggling j
    on the list from which i was deleted.  Two toggles commute as well. *)
Theorem remove_toggle_commute i j st :
  handleRemoveRestaurant i (handleToggleBlacklist j st) =
    handleToggleBlacklist j (handleRemoveRestaurant i st) /\
  handleToggleBlacklist i (handleToggleBlacklist j st) =
    handleToggleBlacklist j (handleToggleBlacklist i st).
Proof.
split.
- rewrite /handleRemoveRestaurant /handleToggleBlacklist !setRestaurants_twice.
  apply: setRestaurants_eq; rewrite /= filter_map; congr map.
  by apply: eq_filter => r /=; case: (id r == j).
- rewrite /handleToggleBlacklist !setRestaurants_twice.
  apply: setRestaurants_eq; rewrite /= -!map_comp; apply: eq_map => r /=.
  case Hi: (id r == i); case Hj: (id r == j); rewrite /= ?Hi ?Hj //.
Qed.

(** X4.  Reset absorbs toggles and commutes with removal: resetting after
    a toggle is resetting, and resetting a list from which an id was
    removed is removing the id from the reset list. *)
Theorem reset_absorbs_toggle i st :
  handleResetBlacklist (handleToggleBlacklist i st) = handleResetBlacklist st /\
  handleResetBlacklist (handleRemoveRestaurant i st) =
    handleRemoveRestaurant i (handleResetBlacklist st).
Proof.
split.
- rewrite /handleResetBlacklist /handleToggleBlacklist setRestaurants_twice.
  apply: setRestaurants_eq; rewrite /= -map_comp; apply: eq_map => r /=.
  by case: (id r == i).
- rewrite /handleResetBlacklist /handleRemoveRestaurant !setRestaurants_twice.
  by apply: setRestaurants_eq; rewrite /= filter_map.
Qed.

End Composition.

Section ActiveList.

Implicit Types (st : State) (rs : seq Restaurant) (i : jsstring).

Lemma reset_fixes_unflagged rs :
  ~~ has blacklisted rs ->
  [seq mkRestaurant (id r) (name r) false | r <- rs] = rs.
Proof.
elim: rs => //= -[ri rn rb] rs IH; rewrite negb_or /= => /andP [Hb Hrs].
by rewrite IH // (negbTE Hb).
Qed.

Lemma has_blacklisted_reset rs :
  has blacklisted [seq mkRestaurant (id r) (name r) false | r <- rs] = false.
Proof. by rewrite has_map; apply/hasPn. Qed.

(** X5.  The Reset button is rendered exactly when a reset would change
    something: handleResetBlacklist returns the state it was given if and
    only if no record is blacklisted (hasBlacklisted is false), and in that
    case every record is active. *)
Theorem reset_noop_iff_none_blacklisted st :
  (handleResetBlacklist st = st <-> resetShown st = false) /\
  (resetShown st = false -> activeRestaurants st = restaurants st).
Proof.
rewrite /resetShown /hasBlacklisted; split; first split.
- by move=> <-; rewrite /= has_blacklisted_reset.
- move=> /negbT Hb; rewrite /handleResetBlacklist reset_fixes_unflagged //.
  exact: setRestaurants_same.
- move=> /negbT Hb; apply/all_filterP.
  by rewrite all_predC.
Qed.

Lemma reset_noop_iff_none_blacklisted_witness :
  activeRestaurants (mkState [:: pizza; tacos] None false false) =
  [:: pizza; tacos].
Proof.
by case: (reset_noop_iff_none_blacklisted
            (mkState [:: pizza; tacos] None false false)) => _; apply.
Defined.

(** X6.  After a reset every record is active, so a pick can be requested
    after a reset exactly when the list has at least two records,
    whatever was excluded before. *)
Theorem active_after_reset st :
  [/\ activeRestaurants (handleResetBlacklist st) =
        restaurants (handleResetBlacklist st),
      size (activeRestaurants (handleResetBlacklist st)) =
        size (restaurants st)
    & suggestDisabled (handleResetBlacklist st) = (size (restaurants st) < 2)].
Proof.
have Hact : activeRestaurants (handleResetBlacklist st) =
            restaurants (handleResetBlacklist st).
  apply/all_filterP; rewrite all_predC.
  by rewrite [has _ _]has_blacklisted_reset.
by split=> //; rewrite /suggestDisabled Hact /= size_map.
Qed.

(** X7.  A record that was just added is eligible: after an accepted
    submission the active list is the old active list with the new record
    at its end, and the old list is kept, in order, in front of it. *)
Theorem active_after_add (uuid v : jsstring) st (res : State * seq Effect) :
  onSubmit uuid v st = inr res ->
  let new := mkRestaurant uuid (trim v) false in
  [/\ restaurants res.1 = rcons (restaurants st) new,
      activeRestaurants res.1 = rcons (activeRestaurants st) new,
      size (activeRestaurants res.1) = (size (activeRestaurants st)).+1
    & res.2 = [:: FormReset]].
Proof.
case/onSubmit_inr => _ -> /=.
by rewrite /activeRestaurants /= filter_rcons /= size_rcons.
Qed.

Lemma active_after_add_witness :
  let res := handleAddRestaurant (js "id-4") (js " Ramen ") lunchSpots in
  let new := mkRestaurant (js "id-4") (js "Ramen") false in
  [/\ restaurants res.1 = [:: pizza; sushi; tacos; new],
      activeRestaurants res.1 = [:: pizza; tacos; new],
      size (activeRestaurants res.1) = 3
    & res.2 = [:: FormReset]].
Proof.
by apply: (@active_after_add (js "id-4") (js " Ramen ") lunchSpots).
Defined.

(** X8.  Toggling the one record that has the given id moves it into or
    out of the active list and touches no other entry of it: a blacklisted
    record comes back at its place, an active one leaves, and the number of
    active records changes by exactly one. *)
Theorem active_after_toggle i st (l1 l2 : seq Restaurant) (r : Restaurant) :
  restaurants st = l1 ++ r :: l2 -> id r = i ->
  i \notin ids l1 -> i \notin ids l2 ->
  let keep := [seq x <- l1 | ~~ blacklisted x] in
  let rest := [seq x <- l2 | ~~ blacklisted x] in
  [/\ activeRestaurants st =
        keep ++ (if blacklisted r then [::] else [:: r]) ++ rest,
      activeRestaurants (handleToggleBlacklist i st) =
        keep ++ (if blacklisted r then [:: flipped r] else [::]) ++ rest
    & size (activeRestaurants (handleToggleBlacklist i st)) + ~~ blacklisted r
      = size (activeRestaurants st) + blacklisted r].
Proof.
move=> Hst Hr H1 H2 keep rest.
have Hact : activeRestaurants st =
    keep ++ (if blacklisted r then [::] else [:: r]) ++ rest.
  by rewrite /activeRestaurants Hst filter_cat /=; case: (blacklisted r).
have Htog : activeRestaurants (handleToggleBlacklist i st) =
    keep ++ (if blacklisted r then [:: flipped r] else [::]) ++ rest.
  rewrite /activeRestaurants /= Hst map_cat /= Hr eqxx !toggle_absent_id //.
  by rewrite filter_cat /= negbK /flipped Hr; case: (blacklisted r).
split=> //; rewrite Hact Htog !size_cat.
by case: (blacklisted r) => /=; rewrite ?addn0 ?addn1 ?addnS ?addn0.
Qed.

Lemma active_after_toggle_witness :
  [/\ activeRestaurants lunchSpots = [:: pizza; tacos],
      activeRestaurants (handleToggleBlacklist (js "id-2") lunchSpots) =
        [:: pizza; flipped sushi; tacos]
    & size (activeRestaurants (handleToggleBlacklist (js "id-2") lunchSpots))
        + 0 = size (activeRestaurants lunchSpots) + 1].
Proof.
by apply: (@active_after_toggle (js "id-2") lunchSpots [:: pizza] [:: tacos]
             sushi).
Defined.

End ActiveList.

Section Picker.

Implicit Types (st : State) (closure : seq Restaurant) (k : nat).

(** X9.  The timer's callback throws exactly when the drawn index is not
    an index of the list it closed over (reading `.name` of undefined);
    on the empty list it throws for every index.  When it does not throw
    it ends the loading state and leaves the list and the dialog's open
    flag alone. *)
Theorem onTimeout_throws_iff closure k st :
  [/\ (onTimeout closure k st = inl TypeError) <-> (size closure <= k),
      onTimeout [::] k st = inl TypeError
    & forall st', onTimeout closure k st = inr st' ->
        [/\ k < size closure, isLoading st' = false,
            restaurants st' = restaurants st
          & dialogOpen st' = dialogOpen st]].
Proof.
split=> //.
- rewrite /onTimeout; case: (leqP (size closure) k) => Hk.
  + by rewrite at_index_default.
  + by rewrite at_index_nth //; split.
- rewrite /onTimeout => st'; case: (leqP (size closure) k) => Hk.
  + by rewrite at_index_default.
  + by rewrite at_index_nth // => -[<-].
Qed.

(** X10.  Requesting a pick never changes the restaurant list, in either
    branch, and whenever the button can be clicked (it is rendered and not
    disabled) the request does not toast: it clears the previous
    suggestion, opens the dialog in its loading state and starts one timer
    of 1500 ms over the active list.  The button can be clicked exactly
    when at least two records are active. *)
Theorem clickable_pick_starts_timer st :
  [/\ restaurants (handleGetSuggestion st).1 = restaurants st,
      suggestClickable st = (2 <= size (activeRestaurants st)),
      suggestClickable st ->
        handleGetSuggestion st =
          (mkState (restaurants st) None true true,
           [:: SetTimeout (activeRestaurants st) 1500])
    & suggestClickable st = false ->
        handleGetSuggestion st = (st, [:: notEnoughOptions])].
Proof.
have Hc : suggestClickable st = (2 <= size (activeRestaurants st)).
  rewrite /suggestClickable /footerShown /suggestDisabled -leqNgt.
  case H2: (2 <= _); rewrite ?andbF ?andbT //.
  apply: leq_trans (_ : size (activeRestaurants st) <= _).
    exact: ltnW.
  by rewrite size_filter count_size.
split=> //.
- by rewrite /handleGetSuggestion; case: (_ < 2).
- by rewrite Hc => H2; rewrite /handleGetSuggestion [_ < 2]ltnNge H2.
- by rewrite Hc => H2; rewrite /handleGetSuggestion [_ < 2]ltnNge H2.
Qed.

Lemma clickable_pick_starts_timer_witness :
  handleGetSuggestion lunchSpots =
    (mkState [:: pizza; sushi; tacos] None true true,
     [:: SetTimeout [:: pizza; tacos] 1500]) /\
  handleGetSuggestion onlyPizza = (onlyPizza, [:: notEnoughOptions]).
Proof.
case: (clickable_pick_starts_timer lunchSpots) => _ _ Hyes _.
case: (clickable_pick_starts_timer onlyPizza) => _ _ _ Hno.
by split; [apply: Hyes | apply: Hno].
Defined.

(** X11.  A pick is drawn from the list as it was when it was requested:
    whatever state the component is in when the timer fires (records may
    have been removed or excluded meanwhile), the suggestion becomes the
    name at the drawn index of the active list of the request, and the
    list of the later state is not touched. *)
Theorem pick_uses_list_of_request st st' k :
  2 <= size (activeRestaurants st) ->
  k < size (activeRestaurants st) ->
  (handleGetSuggestion st).2 = [:: SetTimeout (activeRestaurants st) 1500] /\
  exists st2,
    [/\ onTimeout (activeRestaurants st) k st' = inr st2,
        suggestion st2 =
          Some (name (nth noRestaurant (activeRestaurants st) k)),
        name (nth noRestaurant (activeRestaurants st) k)
          \in names (activeRestaurants st)
      & restaurants st2 = restaurants st'].
Proof.
move=> H2 Hk; split; first by rewrite /handleGetSuggestion ltnNge H2.
rewrite /onTimeout at_index_nth //.
eexists; split; first by [].
- by [].
- by apply: map_f; apply: mem_nth.
- by [].
Qed.

(* Tacos is removed while the timer is pending and is suggested all the
   same. *)
Lemma pick_uses_list_of_request_witness :
  let later := handleRemoveRestaurant (js "id-3")
                 (handleGetSuggestion lunchSpots).1 in
  (handleGetSuggestion lunchSpots).2 = [:: SetTimeout [:: pizza; tacos] 1500] /\
  exists st2,
    [/\ onTimeout (activeRestaurants lunchSpots) 1 later = inr st2,
        suggestion st2 = Some (js "Tacos"),
        js "Tacos" \in names (activeRestaurants lunchSpots)
      & restaurants st2 = [:: pizza; sushi]].
Proof.
by apply: (@pick_uses_list_of_request lunchSpots
             (handleRemoveRestaurant (js "id-3")
                (handleGetSuggestion lunchSpots).1) 1).
Defined.

(** X12.  What the dialog shows during a pick: after a request that
    starts a timer the open dialog shows the spinner; once the timer has
    fired with a drawn index in range it shows the picked name as the
    verdict, or nothing at all when that name is the empty string. *)
Theorem dialog_shows_pick st k :
  2 <= size (activeRestaurants st) ->
  k < size (activeRestaurants st) ->
  let picked := name (nth noRestaurant (activeRestaurants st) k) in
  let st1 := (handleGetSuggestion st).1 in
  dialogView st1 = Some Spinner /\
  (forall st2, onTimeout (activeRestaurants st) k st1 = inr st2 ->
     dialogView st2 =
       Some (if picked is c :: s then Verdict (c :: s) else NothingShown)).
Proof.
move=> H2 Hk picked st1.
have Hst1 : st1 = mkState (restaurants st) None true true.
  by rewrite /st1 /handleGetSuggestion ltnNge H2.
split; first by rewrite Hst1.
move=> st2; rewrite /onTimeout at_index_nth // => -[<-].
by rewrite Hst1 /dialogView /dialogBody /= -/picked; case: picked.
Qed.

(* A record whose name is empty is picked and the dialog shows no verdict. *)
Lemma dialog_shows_pick_witness :
  dialogView (handleGetSuggestion blankSpot).1 = Some Spinner /\
  (forall st2,
     onTimeout (activeRestaurants blankSpot) 1
       (handleGetSuggestion blankSpot).1 = inr st2 ->
     dialogView st2 = Some NothingShown).
Proof. by apply: (@dialog_shows_pick blankSpot 1). Defined.

End Picker.

Section AddForm.

Implicit Types (st : State) (s v uuid : jsstring).

(* trimStart drops a prefix of white space and nothing else. *)
Lemma trimStart_split s :
  exists2 pre, all isWhiteSpace pre & s = pre ++ trimStart s.
Proof.
elim: s => [|c s [pre Hpre Hs]]; first by exists [::].
rewrite /=; case Hc: (isWhiteSpace c); last by exists [::].
by exists (c :: pre); rewrite /= ?Hc // -Hs.
Qed.

Lemma trimEnd_split s :
  exists2 post, all isWhiteSpace post & s = trimEnd s ++ post.
Proof.
case: (trimStart_split (rev s)) => pre Hpre Hs.
exists (rev pre); first by rewrite all_rev.
by rewrite /trimEnd -rev_cat -Hs revK.
Qed.

Lemma last_of_rev (c : code_unit) s : last c (rev s) = head c s.
Proof. by case: s => [|x s] //=; rewrite rev_cons last_rcons. Qed.

Lemma trim_noOuterSpace s : noOuterSpace (trim s).
Proof.
rewrite /noOuterSpace /trim; apply/andP; split.
- case Ht: (trimStart s) => [|c t] //.
  by rewrite trimEnd_cons ?(trimStart_head Ht).
- rewrite /trimEnd last_of_rev.
  case Ht: (trimStart _) => [|c t] //=.
  exact: trimStart_head Ht.
Qed.

(** X13.  A submission is turned down exactly when the value as typed is
    empty or longer than 50 code units, with the one message of the check
    that failed; any other value runs handleAddRestaurant.  White space
    counts: the checks see the untrimmed value. *)
Theorem onSubmit_by_length uuid v st :
  onSubmit uuid v st =
    if size v == 0
    then inl (ZodError [:: "Please enter a restaurant name."%string])
    else if 50 < size v
    then inl (ZodError [:: "Name is too long."%string])
    else inr (handleAddRestaurant uuid v st).
Proof.
rewrite /onSubmit safeParse_formSchema ltnS leqn0.
by case: (size v == 0) => //; case: (50 < size v).
Qed.

(** X14.  The name stored by an accepted submission is the typed value
    without the white space around it: the value is white space, then the
    stored name, then white space; the stored name neither starts nor ends
    with white space and has at most 50 code units. *)
Theorem stored_name_is_trimmed_value uuid v st (res : State * seq Effect) :
  onSubmit uuid v st = inr res ->
  let stored := name (last noRestaurant (restaurants res.1)) in
  [/\ exists pre post, [/\ all isWhiteSpace pre, all isWhiteSpace post
                         & v = pre ++ stored ++ post],
      noOuterSpace stored
    & size stored <= 50].
Proof.
case/onSubmit_inr => /andP [_ H50] -> /=; rewrite last_rcons /=.
split.
- case: (trimStart_split v) => pre Hpre Hv.
  case: (trimEnd_split (trimStart v)) => post Hpost Ht.
  by exists pre, post; split=> //; rewrite /trim -Ht.
- exact: trim_noOuterSpace.
- exact: leq_trans (size_trim v) H50.
Qed.

Lemma stored_name_is_trimmed_value_witness :
  let res := handleAddRestaurant (js "id-4") (js "  Ramen ") lunchSpots in
  let stored := name (last noRestaurant (restaurants res.1)) in
  [/\ exists pre post, [/\ all isWhiteSpace pre, all isWhiteSpace post
                         & js "  Ramen " = pre ++ stored ++ post],
      noOuterSpace stored
    & size stored <= 50].
Proof.
by apply: (@stored_name_is_trimmed_value (js "id-4") (js "  Ramen ")
             lunchSpots).
Defined.

End AddForm.

Section Reachable.

Implicit Types (st : State) (es : seq Event) (e : Event).

(* A value with a character that is not white space does not trim to the
   empty string. *)
Lemma trim_nonempty (v : jsstring) :
  has (predC isWhiteSpace) v -> 0 < size (trim v).
Proof.
case: (trimStart_split v) => pre Hpre Hv.
case: (trimEnd_split (trimStart v)) => post Hpost Ht.
rewrite -/(trim v) in Ht; rewrite {1}Hv Ht !has_cat !has_predC Hpre Hpost /=.
by rewrite orbF; case: (trim v).
Qed.

(* One event keeps ids distinct and a condition on names that the trimmed
   value of an accepted submission satisfies. *)
Lemma handle_keeps (P : pred jsstring) e st :
  (if e is Submit uuid v then
     (uuid \notin ids (restaurants st)) &&
     (if onSubmit uuid v st is inr _ then P (trim v) else true)
   else true) ->
  uniq (ids (restaurants st)) && all P (names (restaurants st)) ->
  uniq (ids (restaurants (handle e st))) &&
  all P (names (restaurants (handle e st))).
Proof.
case: e => [uuid v|i|i||| closure k|b] /=.
- case/andP=> Hfresh; case Hres: (onSubmit uuid v st) => [err|res] // Hv Hinv.
  case: (onSubmit_inr Hres) => _ ->.
  exact: (@add_keeps P).
- by move=> _; apply: (@remove_keeps P).
- by move=> _; apply: (@toggle_keeps P).
- by move=> _; apply: (@reset_keeps P).
- by move=> _; rewrite /handleGetSuggestion; case: (_ < 2).
- by move=> _; rewrite /onTimeout; case: (at_index closure k).
- by [].
Qed.

(** X15.  Along every run of events from a list whose ids are distinct and
    whose names are trimmed and at most 50 code units long, the list stays
    so, each generated id being new when it is used; this holds in
    particular for every run from the initial, empty state. *)
Theorem run_keeps_almostWellFormed es st :
  almostWellFormed (restaurants st) -> freshIds es st ->
  almostWellFormed (restaurants (run es st)).
Proof.
elim: es st => [|e es IH] st //= Hinv /andP [Hfresh Hrest].
apply: IH => //; apply: handle_keeps => //.
case: e Hfresh {Hrest} => //= uuid v ->.
case Hres: (onSubmit uuid v st) => [err|res] //.
exact: accepted_name_bounded Hres.
Qed.

Lemma run_keeps_almostWellFormed_witness :
  almostWellFormed (restaurants (run busyDay initialState)).
Proof. by apply: (@run_keeps_almostWellFormed busyDay initialState). Defined.

(** X16.  When moreover no submitted value consists of white space only,
    the whole invariant of the data model is kept along the run: ids
    distinct, names trimmed, non-empty and at most 50 code units long. *)
Theorem run_keeps_wellFormed es st :
  wellFormed (restaurants st) -> freshIds es st -> noBlankSubmit es ->
  wellFormed (restaurants (run es st)).
Proof.
elim: es st => [|e es IH] st //= Hinv /andP [Hfresh Hrest] /andP [He Hes].
apply: IH => //; apply: handle_keeps => //.
case: e Hfresh He {Hrest} => //= uuid v -> Hv.
case Hres: (onSubmit uuid v st) => [err|res] //.
have /andP [Ht H50] := accepted_name_bounded Hres.
by rewrite /validName Ht H50 trim_nonempty.
Qed.

Lemma run_keeps_wellFormed_witness :
  wellFormed (restaurants (run quietDay initialState)).
Proof. by apply: (@run_keeps_wellFormed quietDay initialState). Defined.

End Reachable.

(** X17.  The remote pick resolves exactly when the backend produced a
    structured output, and then with that very output: the suggested name
    is handed on as it came, without being compared with the names the
    flow was given. *)
Theorem suggestRestaurant_resolves_iff
    (prompt : Flow.SuggestRestaurantInput -> option Flow.SuggestRestaurantOutput)
    (input : Flow.SuggestRestaurantInput) (o : Flow.SuggestRestaurantOutput) :
  Flow.suggestRestaurant prompt input = Flow.Resolved o <->
  prompt input = Some o.
Proof.
rewrite /Flow.suggestRestaurant /Flow.suggestRestaurantFlow
        /Flow.suggestRestaurantFlow_fn.
by case: (prompt input) => [o'|] /=; split=> // -[->].
Qed.

(** X18.  Removing an id deletes every record that carries it and no
    other: the list shrinks by the number of records with that id, which
    is exactly one when the ids of the list are distinct and the id is
    present. *)
Theorem remove_size (i : jsstring) (st : State) :
  size (restaurants (handleRemoveRestaurant i st)) +
    count (fun r => id r == i) (restaurants st) = size (restaurants st) /\
  (uniq (ids (restaurants st)) -> i \in ids (restaurants st) ->
   (size (restaurants (handleRemoveRestaurant i st))).+1 =
     size (restaurants st)).
Proof.
have Hsz : size (restaurants (handleRemoveRestaurant i st)) +
    count (fun r => id r == i) (restaurants st) = size (restaurants st).
  rewrite /= size_filter addnC -[RHS](count_predC (fun r => id r == i)).
  by [].
split=> // Hu Hi; rewrite -Hsz -addn1; congr (_ + _).
have -> : count (fun r => id r == i) (restaurants st) =
          count_mem i (ids (restaurants st)).
  by rewrite /ids count_map; apply: eq_count => r /=; rewrite eq_sym.
by rewrite count_uniq_mem // Hi.
Qed.

Lemma remove_size_witness :
  (size (restaurants (handleRemoveRestaurant (js "id-2") lunchSpots))).+1 =
  size (restaurants lunchSpots).
Proof.
by case: (remove_size (js "id-2") lunchSpots) => _; apply.
Defined.
